(** * ExportInstanceDialog: the export dialog of the launcher

    A shallow embedding of [launcher/ui/dialogs/ExportInstanceDialog.cpp]:
    the [.packignore] text format (QString::split / QStringList::join), the
    separator prefix tree the dialog filters with, and the dialog's slots
    ([doExport], [done], [rowsInserted], [loadPackIgnore], [savePackIgnore])
    as programs of a small state, trace and exception monad. *)

From Stdlib Require Import List String Ascii Bool ZArith Lia.
Import ListNotations.

Local Open Scope string_scope.
Local Open Scope list_scope.

(** ** QString and QStringList *)

Module QStr.

(** '\n', the record delimiter of the ignore file. *)
Definition newline : ascii := Ascii.ascii_of_nat 10.

(** '/', the template argument of [SeparatorPrefixTree<'/'>]. *)
Definition slash : ascii := "/"%char.

(** [QString::isEmpty]. *)
Definition isEmpty (s : string) : bool :=
  match s with
  | EmptyString => true
  | String _ _ => false
  end.

(** [QString::contains(QChar)]. *)
Fixpoint contains (c : ascii) (s : string) : bool :=
  match s with
  | EmptyString => false
  | String a r => if Ascii.eqb a c then true else contains c r
  end.

(** [QString::split(sep, Qt::KeepEmptyParts)]: the pieces between the
    occurrences of [sep]; a string without [sep] is its own single piece. *)
Fixpoint splitKeep (sep : ascii) (s : string) : list string :=
  match s with
  | EmptyString => [EmptyString]
  | String a r =>
      if Ascii.eqb a sep then EmptyString :: splitKeep sep r
      else match splitKeep sep r with
           | [] => [String a EmptyString]
           | piece :: pieces => String a piece :: pieces
           end
  end.

(** [QString::split(sep, Qt::SkipEmptyParts)]: as above, with the empty
    pieces left out of the result. *)
Definition split (sep : ascii) (s : string) : list string :=
  filter (fun piece => negb (isEmpty piece)) (splitKeep sep s).

(** [QStringList::join(QChar)]. *)
Definition join (sep : ascii) (l : list string) : string :=
  String.concat (String sep EmptyString) l.

(** A piece of text that a line or a path segment can hold: not empty, and
    free of the separator. *)
Definition piece (sep : ascii) (s : string) : Prop :=
  isEmpty s = false /\ contains sep s = false.

End QStr.

(** ** SeparatorPrefixTree *)

Module SeparatorPrefixTree.

(** Modelled from the spec: the header SeparatorPrefixTree.h. A node has a
    mapping from path segment to child node and a terminal flag; the
    mapping is kept as an association list with one entry per segment, in
    the order the segments were first inserted. *)
#[local] Unset Elimination Schemes.
Inductive Node : Type :=
| MkNode (terminal : bool) (children : list (string * Node)).
#[local] Set Elimination Schemes.

Definition terminal (n : Node) : bool :=
  match n with MkNode t _ => t end.

Definition children (n : Node) : list (string * Node) :=
  match n with MkNode _ ch => ch end.

(** Modelled from the spec: the tree of a new export session, nothing
    covered. *)
Definition empty : Node := MkNode false [].

(** Modelled from the spec: a path is split on the separator into its
    segments, empty segments (consecutive or trailing separators) being
    silently ignored. *)
Definition segments (path : string) : list string :=
  QStr.split QStr.slash path.

(** One map lookup: the child stored under a segment. *)
Fixpoint find_child (seg : string) (ch : list (string * Node)) : option Node :=
  match ch with
  | [] => None
  | (k, c) :: rest => if String.eqb seg k then Some c else find_child seg rest
  end.

(** Walk to the child under [seg], creating it when it is not there, and
    apply [f] to it. *)
Fixpoint alter_child (f : Node -> Node) (seg : string)
    (ch : list (string * Node)) : list (string * Node) :=
  match ch with
  | [] => [(seg, f empty)]
  | (k, c) :: rest =>
      if String.eqb seg k then (k, f c) :: rest
      else (k, c) :: alter_child f seg rest
  end.

(** Modelled from the spec: insert walks or creates a node for each
    segment and marks the final node terminal. A path below a terminal node
    gets its node all the same, which the spec allows. *)
Fixpoint insert_segments (segs : list string) (n : Node) : Node :=
  match segs with
  | [] => MkNode true (children n)
  | seg :: rest =>
      MkNode (terminal n) (alter_child (insert_segments rest) seg (children n))
  end.

Definition insert (path : string) (n : Node) : Node :=
  insert_segments (segments path) n.

(** Apply [f] to the child under [seg] when there is one. *)
Fixpoint update_child (f : Node -> Node) (seg : string)
    (ch : list (string * Node)) : list (string * Node) :=
  match ch with
  | [] => []
  | (k, c) :: rest =>
      if String.eqb seg k then (k, f c) :: rest
      else (k, c) :: update_child f seg rest
  end.

(** Modelled from the spec: remove takes the terminal marking off the
    node of the exact path, if that node is there, and nothing else. *)
Fixpoint remove_segments (segs : list string) (n : Node) : Node :=
  match segs with
  | [] => MkNode false (children n)
  | seg :: rest =>
      MkNode (terminal n) (update_child (remove_segments rest) seg (children n))
  end.

Definition remove (path : string) (n : Node) : Node :=
  remove_segments (segments path) n.

(** Modelled from the spec: covers is true iff the path equals a terminal
    node's path or descends from one; one lookup per segment. *)
Fixpoint covers_segments (segs : list string) (n : Node) : bool :=
  if terminal n then true
  else match segs with
       | [] => false
       | seg :: rest =>
           match find_child seg (children n) with
           | None => false
           | Some c => covers_segments rest c
           end
       end.

Definition covers (n : Node) (path : string) : bool :=
  covers_segments (segments path) n.

(** The terminal nodes of a tree, depth first, each as its segments. *)
Fixpoint coveredSegments (n : Node) : list (list string) :=
  match n with
  | MkNode t ch =>
      (if t then [[]] else []) ++
      (fix below (l : list (string * Node)) : list (list string) :=
         match l with
         | [] => []
         | (k, c) :: rest => map (cons k) (coveredSegments c) ++ below rest
         end) ch
  end.

(** Modelled from the spec: coveredPaths is the ordered sequence of all
    terminal paths, each written with the separator between segments.
    The dialog calls it [toStringList]. *)
Definition toStringList (n : Node) : list string :=
  map (QStr.join QStr.slash) (coveredSegments n).

(** The terminal nodes below the entries of a children mapping. *)
Definition coveredBelow (ch : list (string * Node)) : list (list string) :=
  flat_map (fun kc => map (cons (fst kc)) (coveredSegments (snd kc))) ch.

(** A tree whose covered paths are made of proper segments: none empty,
    none with a separator inside. The trees built by [insert] and [remove]
    from the empty one are all such. *)
Definition WellFormed (n : Node) : Prop :=
  Forall (Forall (QStr.piece QStr.slash)) (coveredSegments n).

(** Insertion of a whole list, first to last. *)
Definition insertAll (paths : list string) (n : Node) : Node :=
  fold_left (fun acc path => insert path acc) paths n.

End SeparatorPrefixTree.

(** ** The world around the dialog *)

(** [Exception]: what [FS::write] throws; [cause()] is its message. *)
Record Exception : Type := MkException { cause : string }.

(** [QSize]: width and height. *)
Definition QSize : Type := (Z * Z)%type.

(** [QModelIndex]: the invalid index (the invisible root of a model) or a
    cell under a parent index. *)
Inductive QModelIndex : Type :=
| InvalidIndex
| ModelIndex (row column : Z) (parentIndex : QModelIndex).

Module QIdx.

(** [QModelIndex::isValid]. *)
Definition isValid (i : QModelIndex) : bool :=
  match i with
  | InvalidIndex => false
  | ModelIndex _ _ _ => true
  end.

(** [QModelIndex::parent]. *)
Definition parent (i : QModelIndex) : QModelIndex :=
  match i with
  | InvalidIndex => InvalidIndex
  | ModelIndex _ _ p => p
  end.

(** [QAbstractItemModel::index(row, column, parent)] for a row that the
    model has. *)
Definition index (row column : Z) (parent : QModelIndex) : QModelIndex :=
  ModelIndex row column parent.

End QIdx.

(** [MMCIcon], as far as [SaveIcon] looks at it: [getFilePath] is [None]
    for a null QString, [availableSizes] are those of the image of the
    icon's current type. *)
Record MMCIcon : Type := MkIcon {
  isBuiltIn : bool;
  getFilePath : option string;
  availableSizes : list QSize
}.

(** [BaseInstance], as far as the dialog looks at it. *)
Record BaseInstance : Type := MkInstance {
  name : string;
  instanceRoot : string;
  iconKey : string
}.

(** [FileIgnoreProxy]: the proxy model that owns the prefix tree of blocked
    paths, relative to [root]. The checked state of an entry is derived
    from the tree and not stored. *)
Record FileIgnoreProxy : Type := MkProxy {
  root : string;
  blocked : SeparatorPrefixTree.Node
}.

(** The dialog's members: [m_instance] and [proxyModel]. *)
Record Dialog : Type := MkDialog {
  m_instance : BaseInstance;
  proxyModel : FileIgnoreProxy
}.

(** What a slot of the dialog does to the world outside it, in order. *)
Inductive Event : Type :=
| GetSaveFileName (title dir filter : string)
| FsCopy (src dst : string)
| PixmapSave (size : QSize) (dst : string)
| CollectFileList (rootDir : string)
| CompressDirFiles (output rootDir : string) (files : list string)
| MessageBoxWarning (title text : string)
| FsWrite (filename data : string)
| QWarning (message : string)
| QDialogDone (result : Z)
| TreeViewExpand (node : QModelIndex)
| ProxySetBlockedPaths (paths : list string).

(** The collaborators of the dialog, outside this file: the file system
    helpers of [FS], the icon list, the save-file picker, the directory
    walk and the archive writer of [MMCZip], and [QFile]. *)
Record World : Type := MkWorld {
  (** [FS::PathCombine]. *)
  PathCombine : string -> string -> string;
  (** [FS::RemoveInvalidFilenameChars]. *)
  RemoveInvalidFilenameChars : string -> string;
  (** [QDir::homePath]. *)
  homePath : string;
  (** [QFileInfo(path).fileName()]. *)
  fileName : string -> string;
  (** [APPLICATION->icons()->icon(key)], [None] for a null pointer. *)
  icon : string -> option MMCIcon;
  (** [QFileDialog::getSaveFileName], the empty string when cancelled. *)
  getSaveFileName : string -> string -> string -> string;
  (** The files the walk of [MMCZip::collectFileListRecursively] finds under
      a root, relative to it and in the order found; [None] when the walk
      fails. *)
  enumerate : string -> option (list string);
  (** [MMCZip::compressDirFiles]. *)
  compressDirFiles : string -> string -> list string -> bool;
  (** [FS::write]: [Some e] when it throws [e]. *)
  FS_write : string -> string -> option Exception;
  (** [QFile::open(ReadOnly)], [readAll] and [QString::fromUtf8]: the text
      of the file, [None] when it cannot be opened. *)
  openReadOnly : string -> option string;
  (** [FileIgnoreProxy::shouldExpand]. *)
  shouldExpand : FileIgnoreProxy -> QModelIndex -> bool
}.

(** ** The monad of the slots: dialog state, trace of events, exceptions *)

Inductive Outcome (A : Type) : Type :=
| Normal (a : A)
| Thrown (e : Exception).

Arguments Normal {A} a.
Arguments Thrown {A} e.

Record Run (A : Type) : Type := MkRun {
  outcome : Outcome A;
  final : Dialog;
  trace : list Event
}.

Arguments MkRun {A} outcome final trace.
Arguments outcome {A} r.
Arguments final {A} r.
Arguments trace {A} r.

Definition M (A : Type) : Type := Dialog -> Run A.

Definition ret {A : Type} (a : A) : M A :=
  fun d => MkRun (Normal a) d [].

Definition bind {A B : Type} (m : M A) (k : A -> M B) : M B :=
  fun d =>
    let r := m d in
    match outcome r with
    | Normal a =>
        let r' := k a (final r) in
        MkRun (outcome r') (final r') (trace r ++ trace r')
    | Thrown e => MkRun (Thrown e) (final r) (trace r)
    end.

Definition get : M Dialog :=
  fun d => MkRun (Normal d) d [].

Definition put (d' : Dialog) : M unit :=
  fun _ => MkRun (Normal tt) d' [].

Definition emit (ev : Event) : M unit :=
  fun d => MkRun (Normal tt) d [ev].

Definition throw {A : Type} (e : Exception) : M A :=
  fun d => MkRun (Thrown e) d [].

(** [try { m } catch (const Exception &e) { handler e }]. *)
Definition try_catch {A : Type} (m : M A) (handler : Exception -> M A) : M A :=
  fun d =>
    let r := m d in
    match outcome r with
    | Normal a => r
    | Thrown e =>
        let r' := handler e (final r) in
        MkRun (outcome r') (final r') (trace r ++ trace r')
    end.

Declare Scope dialog_scope.
Delimit Scope dialog_scope with dialog.

Notation "x <- m ;; k" := (bind m (fun x => k))
  (at level 61, m at next level, right associativity) : dialog_scope.
Notation "m ;;; k" := (bind m (fun _ => k))
  (at level 61, right associativity) : dialog_scope.

Local Open Scope dialog_scope.

(** ** FileIgnoreProxy *)

Module Proxy.

(** Modelled from the spec: the constructor of FileIgnoreProxy; a new proxy
    has the prefix tree of a new session. *)
Definition create (root : string) : FileIgnoreProxy :=
  MkProxy root SeparatorPrefixTree.empty.

(** [FileIgnoreProxy::blockedPaths]: the proxy's tree. *)
Definition blockedPaths (p : FileIgnoreProxy) : SeparatorPrefixTree.Node :=
  blocked p.

(** Modelled from the spec: FileIgnoreProxy::setBlockedPaths clears the
    prefix tree and re-inserts each string; the checked states, derived
    from the tree, follow. *)
Definition setBlockedPaths (paths : list string) (p : FileIgnoreProxy)
    : FileIgnoreProxy :=
  MkProxy (root p)
    (SeparatorPrefixTree.insertAll paths SeparatorPrefixTree.empty).

End Proxy.

(** ** MMCZip *)

Module MMCZip.

(** Modelled from the spec: MMCZip::collectFileListRecursively, the
    filter of the export. Of the files enumerated under the root it keeps,
    in order, those the exclude filter does not hold of; [None] stands for
    the result false. *)
Definition collectFileListRecursively (w : World) (rootDir : string)
    (excludeFilter : string -> bool) : option (list string) :=
  match enumerate w rootDir with
  | None => None
  | Some allPaths => Some (filter (fun path => negb (excludeFilter path)) allPaths)
  end.

End MMCZip.

(** ** The dialog *)

Section ExportInstanceDialog.

Variable w : World.

(** [QDialog::Accepted] and [QDialog::Rejected]. *)
Definition Accepted : Z := 1.
Definition Rejected : Z := 0.

(** The constructor, up to the views: the proxy is created on the instance
    root; what follows it in the constructor is [loadPackIgnore]. *)
Definition newDialog (instance : BaseInstance) : Dialog :=
  MkDialog instance (Proxy.create (instanceRoot instance)).

(** The lambda [areaOf] of [SaveIcon]. The source multiplies two ints; the
    sizes of an icon are far below where that product leaves the range. *)
Definition areaOf (size : QSize) : Z := (fst size * snd size)%Z.

(** The loop of [SaveIcon]: the variant with the largest area, the first
    one among equals. *)
Definition largestOf (first : QSize) (sizes : list QSize) : QSize :=
  fold_left
    (fun largest size => if (areaOf largest <? areaOf size)%Z then size else largest)
    sizes first.

(** [SaveIcon]: save the icon to the instance's folder if needed. *)
Definition SaveIcon (instance : BaseInstance) : M unit :=
  let key := iconKey instance in
  match icon w key with
  | None => ret tt
  | Some mmcIcon =>
      if isBuiltIn mmcIcon then ret tt
      else
        match getFilePath mmcIcon with
        | Some path =>
            emit (FsCopy path
                    (PathCombine w (instanceRoot instance) (fileName w path)))
        | None =>
            match availableSizes mmcIcon with
            | [] => ret tt
            | first :: _ =>
                let largest := largestOf first (availableSizes mmcIcon) in
                emit (PixmapSave largest
                        (PathCombine w (instanceRoot instance) (key ++ ".png")%string))
            end
        end
  end.

Definition unableToExport : Event :=
  MessageBoxWarning "Error" "Unable to export instance".

(** The arguments of [QFileDialog::getSaveFileName] in [doExport]: the
    title, the suggested file in the home directory, and the filter. *)
Definition exportTitle (d : Dialog) : string :=
  ("Export " ++ name (m_instance d))%string.

Definition exportSuggestion (d : Dialog) : string :=
  PathCombine w (homePath w)
    (RemoveInvalidFilenameChars w (name (m_instance d)) ++ ".zip")%string.

Definition zipFilter : string := "Zip (*.zip)".

Definition picking (d : Dialog) : Event :=
  GetSaveFileName (exportTitle d) (exportSuggestion d) zipFilter.

(** [output]: what the picker returns. *)
Definition pickedOutput (d : Dialog) : string :=
  getSaveFileName w (exportTitle d) (exportSuggestion d) zipFilter.

(** [ExportInstanceDialog::doExport]. *)
Definition doExport : M bool :=
  d <- get ;;
  let instance := m_instance d in
  emit (picking d) ;;;
  let output := pickedOutput d in
  if QStr.isEmpty output then ret false
  else
    SaveIcon instance ;;;
    d <- get ;;
    let blocked := Proxy.blockedPaths (proxyModel d) in
    emit (CollectFileList (instanceRoot instance)) ;;;
    match MMCZip.collectFileListRecursively w (instanceRoot instance)
            (SeparatorPrefixTree.covers blocked) with
    | None => emit unableToExport ;;; ret false
    | Some files =>
        emit (CompressDirFiles output (instanceRoot instance) files) ;;;
        if compressDirFiles w output (instanceRoot instance) files then ret true
        else emit unableToExport ;;; ret false
    end.

(** Whether the export of [doExport] fails, once an output is picked: the
    enumeration fails, or the archive writer does. *)
Definition exportFails (d : Dialog) : bool :=
  let rootDir := instanceRoot (m_instance d) in
  match MMCZip.collectFileListRecursively w rootDir
          (SeparatorPrefixTree.covers (Proxy.blockedPaths (proxyModel d))) with
  | None => true
  | Some files => negb (compressDirFiles w (pickedOutput d) rootDir files)
  end.

(** [ExportInstanceDialog::ignoreFileName]. *)
Definition ignoreFileName (d : Dialog) : string :=
  PathCombine w (instanceRoot (m_instance d)) ".packignore".

(** [ExportInstanceDialog::loadPackIgnore]. *)
Definition loadPackIgnore : M unit :=
  d <- get ;;
  let filename := ignoreFileName d in
  match openReadOnly w filename with
  | None => ret tt
  | Some text =>
      let lines := QStr.split QStr.newline text in
      emit (ProxySetBlockedPaths lines) ;;;
      put (MkDialog (m_instance d) (Proxy.setBlockedPaths lines (proxyModel d)))
  end.

(** The text [savePackIgnore] writes. *)
Definition packIgnoreData (d : Dialog) : string :=
  QStr.join QStr.newline
    (SeparatorPrefixTree.toStringList (Proxy.blockedPaths (proxyModel d))).

(** The call of [FS::write], which may throw. *)
Definition write (filename data : string) : M unit :=
  emit (FsWrite filename data) ;;;
  match FS_write w filename data with
  | None => ret tt
  | Some e => throw e
  end.

(** [ExportInstanceDialog::savePackIgnore]. *)
Definition savePackIgnore : M unit :=
  d <- get ;;
  let data := packIgnoreData d in
  let filename := ignoreFileName d in
  try_catch (write filename data) (fun e => emit (QWarning (cause e))).

(** What [done] does after [savePackIgnore]. *)
Definition finish (result : Z) : M unit :=
  if (result =? Accepted)%Z then
    ok <- doExport ;;
    if ok then emit (QDialogDone Accepted) else ret tt
  else emit (QDialogDone result).

(** [ExportInstanceDialog::done]. *)
Definition done (result : Z) : M unit :=
  savePackIgnore ;;; finish result.

(** The body of the loop of [rowsInserted], for row [i]. *)
Definition rowInserted (parent : QModelIndex) (i : Z) : M unit :=
  d <- get ;;
  let node := QIdx.index i 0%Z parent in
  if shouldExpand w (proxyModel d) node then
    let expNode := QIdx.parent node in
    if negb (QIdx.isValid expNode) then ret tt
    else emit (TreeViewExpand node)
  else ret tt.

(** [for (int i = ...; i < bottom; i++)], with [count] rounds left. *)
Fixpoint rowsFrom (parent : QModelIndex) (i : Z) (count : nat) : M unit :=
  match count with
  | O => ret tt
  | S count' => rowInserted parent i ;;; rowsFrom parent (i + 1)%Z count'
  end.

(** [ExportInstanceDialog::rowsInserted]: the loop starts at [top] and runs
    while [i < bottom]. *)
Definition rowsInserted (parent : QModelIndex) (top bottom : Z) : M unit :=
  rowsFrom parent top (Z.to_nat (bottom - top)%Z).

(** The constructor: a new dialog, then [loadPackIgnore]. *)
Definition construct (instance : BaseInstance) : Run unit :=
  loadPackIgnore (newDialog instance).

(** The blocked paths of a dialog as the constructor leaves it: those that
    [loadPackIgnore] read into the new proxy. *)
Definition reloaded (instance : BaseInstance) : list string :=
  SeparatorPrefixTree.toStringList
    (Proxy.blockedPaths (proxyModel (final (construct instance)))).

End ExportInstanceDialog.

(** ** Reading a trace *)

(** The file lists handed to the archive writer. *)
Definition archived (tr : list Event) : list (list string) :=
  flat_map (fun ev => match ev with
                      | CompressDirFiles _ _ files => [files]
                      | _ => []
                      end) tr.

(** The message boxes shown to the user. *)
Definition messages (tr : list Event) : list Event :=
  filter (fun ev => match ev with
                    | MessageBoxWarning _ _ => true
                    | _ => false
                    end) tr.

(** The events of [SaveIcon]. *)
Definition isIconEvent (ev : Event) : bool :=
  match ev with
  | FsCopy _ _ | PixmapSave _ _ => true
  | _ => false
  end.

(** ** A small world to run the dialog in *)

Module Scenario.

Definition instance : BaseInstance := MkInstance "pack" "/inst" "default".

(** A world with no custom icon, where the picker returns [picked], the
    walk finds [found], the archive writer answers [zipped], the ignore file
    holds [ignoreText], [FS::write] throws [writeError] if any, and
    [shouldExpand] answers [expand]. *)
Definition world (picked : string) (found : option (list string))
    (zipped : bool) (ignoreText : option string)
    (writeError : option Exception) (expand : bool) : World :=
  MkWorld (fun a b => (a ++ "/" ++ b)%string) (fun s => s) "/home/user"
    (fun s => s) (fun _ => None) (fun _ _ _ => picked) (fun _ => found)
    (fun _ _ _ => zipped) (fun _ _ => writeError) (fun _ => ignoreText)
    (fun _ _ => expand).

(** The same world for an instance with a custom icon kept in a file. *)
Definition withIconFile (path : string) (w : World) : World :=
  MkWorld (PathCombine w) (RemoveInvalidFilenameChars w) (homePath w)
    (fileName w) (fun _ => Some (MkIcon false (Some path) []))
    (getSaveFileName w) (enumerate w) (compressDirFiles w) (FS_write w)
    (openReadOnly w) (shouldExpand w).

(** A dialog whose tree blocks the given paths. *)
Definition dialog (paths : list string) : Dialog :=
  MkDialog instance
    (Proxy.setBlockedPaths paths (Proxy.create (instanceRoot instance))).

(** The path of a file whose name has a line break in it. *)
Definition twoLines : string :=
  ("a" ++ String QStr.newline "b")%string.

End Scenario.

(** ** More to read off a run *)

(** The calls of [QDialog::done]. *)
Definition closings (tr : list Event) : list Event :=
  filter (fun ev => match ev with
                    | QDialogDone _ => true
                    | _ => false
                    end) tr.

(** Whether [doExport] gets to the end: an output is picked, the walk and
    the archive writer succeed. *)
Definition exportSucceeds (w : World) (d : Dialog) : bool :=
  negb (QStr.isEmpty (pickedOutput w d)) && negb (exportFails w d).

(** The body of the loop of [SaveIcon], as [largestOf] folds it. *)
Definition larger (largest size : QSize) : QSize :=
  if (areaOf largest <? areaOf size)%Z then size else largest.

(** A size whose area, as [areaOf] computes it, fits the source's int. *)
Definition fitsInt (size : QSize) : Prop :=
  (- 2 ^ 31 <= areaOf size < 2 ^ 31)%Z.

(** An event that writes the icon of [instance] into its root: the copy
    of the file of an icon that is not built in, under the name of that
    file, or the pixmap of one of the sizes of an icon that is not built in
    and has no file, under the icon key with ".png". *)
Definition savesIconOf (w : World) (instance : BaseInstance) (ev : Event) : Prop :=
  exists mmcIcon,
    icon w (iconKey instance) = Some mmcIcon /\
    isBuiltIn mmcIcon = false /\
    match ev with
    | FsCopy src dst =>
        getFilePath mmcIcon = Some src /\
        dst = PathCombine w (instanceRoot instance) (fileName w src)
    | PixmapSave size dst =>
        getFilePath mmcIcon = None /\
        In size (availableSizes mmcIcon) /\
        dst = PathCombine w (instanceRoot instance) (iconKey instance ++ ".png")%string
    | _ => False
    end.

(** The values [i] takes in [count] rounds of [for (...; i++)]. *)
Fixpoint rowsFromList (i : Z) (count : nat) : list Z :=
  match count with
  | O => []
  | S count' => i :: rowsFromList (i + 1)%Z count'
  end.

(** The rows the loop of [rowsInserted] goes through. *)
Definition rowsBetween (top bottom : Z) : list Z :=
  rowsFromList top (Z.to_nat (bottom - top)%Z).

(** The rows expanded by a batch, given what the loop goes through. *)
Definition expansions (w : World) (d : Dialog) (parent : QModelIndex)
    (rows : list Z) : list Event :=
  if QIdx.isValid parent then
    map TreeViewExpand
      (filter (shouldExpand w (proxyModel d))
         (map (fun i => QIdx.index i 0 parent) rows))
  else [].

(** A text of line breaks only, the empty text included. *)
Fixpoint onlyLineBreaks (text : string) : bool :=
  match text with
  | EmptyString => true
  | String a r => Ascii.eqb a QStr.newline && onlyLineBreaks r
  end.

(** * Properties *)

(** ** Splitting and joining *)

Module QStrFacts.
Import QStr.

Lemma splitKeep_not_nil (sep : ascii) (s : string) : splitKeep sep s <> [].
Proof.
  destruct s as [|a r]; simpl; [discriminate|].
  destruct (Ascii.eqb a sep); [discriminate|].
  destruct (splitKeep sep r); discriminate.
Qed.

Lemma splitKeep_free (sep : ascii) (s : string) :
  contains sep s = false -> splitKeep sep s = [s].
Proof.
  induction s as [|a r IH]; simpl; [reflexivity|].
  destruct (Ascii.eqb a sep); [discriminate|].
  intros H. rewrite (IH H). reflexivity.
Qed.

Lemma splitKeep_app (sep : ascii) (a b : string) :
  contains sep a = false ->
  splitKeep sep (a ++ String sep b) = a :: splitKeep sep b.
Proof.
  induction a as [|c r IH]; simpl.
  - rewrite Ascii.eqb_refl. reflexivity.
  - destruct (Ascii.eqb c sep); [discriminate|].
    intros H. rewrite (IH H). reflexivity.
Qed.

(** Splitting is by pieces: the text before a separator is split on its
    own. *)
Lemma splitKeep_sep (sep : ascii) (a b : string) :
  splitKeep sep (a ++ String sep b) = splitKeep sep a ++ splitKeep sep b.
Proof.
  induction a as [|c r IH]; simpl.
  - rewrite Ascii.eqb_refl. reflexivity.
  - destruct (Ascii.eqb c sep); simpl.
    + rewrite IH. reflexivity.
    + rewrite IH.
      pose proof (splitKeep_not_nil sep r) as Hne.
      destruct (splitKeep sep r); [contradiction|reflexivity].
Qed.

Lemma split_sep (sep : ascii) (a b : string) :
  split sep (a ++ String sep b) = split sep a ++ split sep b.
Proof.
  unfold split. rewrite splitKeep_sep. apply filter_app.
Qed.

(** The pieces of a split are free of the separator. *)
Lemma splitKeep_pieces_free (sep : ascii) (s : string) :
  Forall (fun x => contains sep x = false) (splitKeep sep s).
Proof.
  induction s as [|a r IH]; simpl.
  - constructor; [reflexivity|constructor].
  - destruct (Ascii.eqb a sep) eqn:E.
    + constructor; [reflexivity|exact IH].
    + destruct (splitKeep sep r) as [|x xs].
      * constructor; [simpl; rewrite E; reflexivity|constructor].
      * inversion IH; subst. constructor; [simpl; rewrite E; assumption|assumption].
Qed.

Lemma split_pieces (sep : ascii) (s : string) :
  Forall (piece sep) (split sep s).
Proof.
  unfold split. apply Forall_forall. intros x Hx.
  apply filter_In in Hx. destruct Hx as [Hin Hne].
  split.
  - destruct (isEmpty x); [discriminate|reflexivity].
  - pose proof (splitKeep_pieces_free sep s) as HF.
    rewrite Forall_forall in HF. apply HF. exact Hin.
Qed.

(** Joining the kept pieces gives the text back: [splitKeep] loses
    nothing. *)
Lemma join_splitKeep (sep : ascii) (s : string) :
  join sep (splitKeep sep s) = s.
Proof.
  unfold join. induction s as [|a r IH]; simpl; [reflexivity|].
  pose proof (splitKeep_not_nil sep r) as Hne.
  destruct (Ascii.eqb a sep) eqn:E.
  - apply Ascii.eqb_eq in E. subst a.
    destruct (splitKeep sep r) as [|x xs]; [contradiction|].
    simpl in *. rewrite IH. reflexivity.
  - destruct (splitKeep sep r) as [|x xs]; [contradiction|].
    destruct xs as [|y ys]; simpl in *; rewrite <- IH; reflexivity.
Qed.

Lemma join_cons (sep : ascii) (x y : string) (l : list string) :
  join sep (x :: y :: l) = (x ++ String sep (join sep (y :: l)))%string.
Proof. reflexivity. Qed.

(** Splitting a joined list of pieces gives the list back. *)
Lemma split_join (sep : ascii) (l : list string) :
  Forall (piece sep) l -> split sep (join sep l) = l.
Proof.
  induction l as [|x l IH]; intros HF; [reflexivity|].
  inversion HF as [|? ? [Hne Hfree] HF']; subst.
  destruct l as [|y l].
  - unfold split, join. simpl. rewrite (splitKeep_free _ _ Hfree).
    simpl. rewrite Hne. reflexivity.
  - rewrite join_cons. unfold split. rewrite (splitKeep_app _ _ _ Hfree).
    simpl. rewrite Hne. simpl. f_equal. apply IH. exact HF'.
Qed.

Lemma join_piece_nonempty (sep : ascii) (x : string) (l : list string) :
  isEmpty x = false -> isEmpty (join sep (x :: l)) = false.
Proof.
  intros H. destruct l; [exact H|].
  rewrite join_cons. destruct x; [discriminate|reflexivity].
Qed.

End QStrFacts.

(** ** The prefix tree *)

Module TreeFacts.
Import QStr QStrFacts SeparatorPrefixTree.

#[local] Arguments coveredBelow : simpl never.

Lemma coveredSegments_node (t : bool) (ch : list (string * Node)) :
  coveredSegments (MkNode t ch) = (if t then [[]] else []) ++ coveredBelow ch.
Proof.
  unfold coveredBelow. simpl. f_equal.
  induction ch as [|[k c] rest IH]; simpl; [reflexivity|].
  rewrite IH. reflexivity.
Qed.

Lemma node_eta (n : Node) : n = MkNode (terminal n) (children n).
Proof. destruct n; reflexivity. Qed.

Lemma in_covered (p : list string) (n : Node) :
  In p (coveredSegments n) <->
  (terminal n = true /\ p = []) \/ In p (coveredBelow (children n)).
Proof.
  rewrite (node_eta n) at 1. rewrite coveredSegments_node, in_app_iff.
  destruct (terminal n); simpl; intuition (try discriminate; auto).
Qed.

Lemma in_coveredBelow_cons (p : list string) (k : string) (c : Node)
    (rest : list (string * Node)) :
  In p (coveredBelow ((k, c) :: rest)) <->
  (exists p', p = k :: p' /\ In p' (coveredSegments c)) \/ In p (coveredBelow rest).
Proof.
  unfold coveredBelow; simpl. rewrite in_app_iff, in_map_iff.
  split; intros [H|H]; auto; left.
  - destruct H as [p' [E H]]. exists p'. auto.
  - destruct H as [p' [E H]]. exists p'. auto.
Qed.

(** *** Lookup after a walk *)

Lemma find_child_alter_same (f : Node -> Node) (seg : string)
    (ch : list (string * Node)) :
  find_child seg (alter_child f seg ch) =
  Some (f (match find_child seg ch with Some c => c | None => empty end)).
Proof.
  induction ch as [|[k c] rest IH]; simpl.
  - rewrite String.eqb_refl. reflexivity.
  - destruct (String.eqb seg k) eqn:E; simpl; rewrite E; [reflexivity|exact IH].
Qed.

Lemma find_child_alter_other (f : Node -> Node) (seg seg' : string)
    (ch : list (string * Node)) :
  seg' <> seg -> find_child seg' (alter_child f seg ch) = find_child seg' ch.
Proof.
  intros Hne. induction ch as [|[k c] rest IH]; simpl.
  - destruct (String.eqb seg' seg) eqn:E; [|reflexivity].
    apply String.eqb_eq in E. contradiction.
  - destruct (String.eqb seg k) eqn:E; simpl.
    + apply String.eqb_eq in E. subst k.
      destruct (String.eqb seg' seg) eqn:E'; [|reflexivity].
      apply String.eqb_eq in E'. contradiction.
    + rewrite IH. reflexivity.
Qed.

(** *** Coverage *)

Lemma covers_segments_terminal (segs : list string) (n : Node) :
  terminal n = true -> covers_segments segs n = true.
Proof. intros H. destruct segs; simpl; rewrite H; reflexivity. Qed.

(** An inserted path covers itself and everything below it. *)
Lemma covers_segments_insert (segs more : list string) (n : Node) :
  covers_segments (segs ++ more) (insert_segments segs n) = true.
Proof.
  revert n. induction segs as [|seg rest IH]; intros n.
  - apply covers_segments_terminal. reflexivity.
  - simpl. destruct (terminal n); [reflexivity|].
    rewrite find_child_alter_same. apply IH.
Qed.

(** Insertion never uncovers a path. *)
Lemma covers_segments_insert_mono (segs q : list string) (n : Node) :
  covers_segments q n = true ->
  covers_segments q (insert_segments segs n) = true.
Proof.
  revert q n. induction segs as [|seg rest IH]; intros q n H.
  - apply covers_segments_terminal. reflexivity.
  - destruct q as [|k q']; simpl in *; destruct (terminal n); auto.
    destruct (string_dec k seg) as [->|Hne].
    + rewrite find_child_alter_same.
      destruct (find_child seg (children n)); [|discriminate].
      apply IH. exact H.
    + rewrite (find_child_alter_other _ _ _ _ Hne). exact H.
Qed.

Lemma covers_insertAll_mono (paths : list string) (q : string) (n : Node) :
  covers n q = true -> covers (insertAll paths n) q = true.
Proof.
  revert n. induction paths as [|p paths IH]; intros n H; [exact H|].
  simpl. apply IH. apply covers_segments_insert_mono. exact H.
Qed.

Lemma segments_below (P R : string) :
  segments (P ++ String slash R) = segments P ++ segments R.
Proof. apply split_sep. Qed.

(** *** The covered paths *)

Lemma coveredBelow_alter (f : Node -> Node) (seg : string) (r : list string)
    (ch : list (string * Node)) :
  (forall c p, In p (coveredSegments (f c)) <-> p = r \/ In p (coveredSegments c)) ->
  forall p, In p (coveredBelow (alter_child f seg ch)) <->
            p = seg :: r \/ In p (coveredBelow ch).
Proof.
  intros Hf p. induction ch as [|[k c] rest IH]; simpl.
  - rewrite in_coveredBelow_cons. split.
    + intros [[p' [-> H]]|H]; [|contradiction].
      apply Hf in H. destruct H as [->|H]; [left; reflexivity|contradiction].
    + intros [->|H]; [|contradiction].
      left. exists r. split; [reflexivity|]. apply Hf. left; reflexivity.
  - destruct (String.eqb seg k) eqn:E.
    + apply String.eqb_eq in E. subst k.
      rewrite !in_coveredBelow_cons. split.
      * intros [[p' [-> H]]|H]; [|auto].
        apply Hf in H. destruct H as [->|H]; [left; reflexivity|].
        right; left. exists p'. auto.
      * intros [->|[[p' [-> H]]|H]]; [| |auto].
        -- left. exists r. split; [reflexivity|]. apply Hf. left; reflexivity.
        -- left. exists p'. split; [reflexivity|]. apply Hf. right; exact H.
    + rewrite !in_coveredBelow_cons, IH. tauto.
Qed.

(** After an insertion the covered paths are the inserted one and those
    that were covered before. *)
Lemma in_covered_insert (segs : list string) (n : Node) (p : list string) :
  In p (coveredSegments (insert_segments segs n)) <->
  p = segs \/ In p (coveredSegments n).
Proof.
  revert n p. induction segs as [|seg rest IH]; intros n p;
    cbn [insert_segments]; rewrite !in_covered; cbn [terminal children].
  - destruct (terminal n); intuition (try discriminate; auto).
  - rewrite (coveredBelow_alter _ seg rest); [|intros c q; apply IH].
    intuition (try discriminate; auto).
Qed.

Lemma in_covered_insertAll (paths : list string) (n : Node) (p : list string) :
  In p (coveredSegments (insertAll paths n)) <->
  In p (map segments paths) \/ In p (coveredSegments n).
Proof.
  revert n. induction paths as [|x paths IH]; intros n; simpl.
  - tauto.
  - unfold insertAll in IH. rewrite IH. unfold insert.
    rewrite in_covered_insert. intuition auto.
Qed.

Lemma coveredBelow_update (f : Node -> Node) (seg : string)
    (ch : list (string * Node)) :
  (forall c p, In p (coveredSegments (f c)) -> In p (coveredSegments c)) ->
  forall p, In p (coveredBelow (update_child f seg ch)) -> In p (coveredBelow ch).
Proof.
  intros Hf p. induction ch as [|[k c] rest IH]; simpl; [auto|].
  destruct (String.eqb seg k); rewrite !in_coveredBelow_cons.
  - intros [[p' [-> H]]|H]; [|auto]. left. exists p'. auto.
  - intros [H|H]; auto.
Qed.

(** A removal covers nothing new. *)
Lemma in_covered_remove (segs : list string) (n : Node) (p : list string) :
  In p (coveredSegments (remove_segments segs n)) -> In p (coveredSegments n).
Proof.
  revert n p. induction segs as [|seg rest IH]; intros n p;
    cbn [remove_segments]; rewrite !in_covered; cbn [terminal children].
  - intuition (try discriminate; auto).
  - intros [H|H]; [auto|].
    right. revert H. apply coveredBelow_update. intros c q. apply IH.
Qed.

(** *** Well-formed trees *)

Lemma WellFormed_empty : WellFormed empty.
Proof. constructor. Qed.

Lemma WellFormed_insert (path : string) (n : Node) :
  WellFormed n -> WellFormed (insert path n).
Proof.
  unfold WellFormed. rewrite !Forall_forall. intros H p Hp.
  apply in_covered_insert in Hp. destruct Hp as [->|Hp]; [|auto].
  apply split_pieces.
Qed.

Lemma WellFormed_remove (path : string) (n : Node) :
  WellFormed n -> WellFormed (remove path n).
Proof.
  unfold WellFormed. rewrite !Forall_forall. intros H p Hp.
  apply in_covered_remove in Hp. auto.
Qed.

Lemma WellFormed_insertAll (paths : list string) (n : Node) :
  WellFormed n -> WellFormed (insertAll paths n).
Proof.
  revert n. induction paths as [|x paths IH]; intros n H; [exact H|].
  simpl. apply IH. apply WellFormed_insert. exact H.
Qed.

(** Written out and split again, the covered paths of a well-formed tree
    are the segment lists they were. *)
Lemma segments_toStringList (n : Node) :
  WellFormed n -> map segments (toStringList n) = coveredSegments n.
Proof.
  unfold WellFormed, toStringList. intros H.
  induction H as [|p l Hp _ IH]; simpl; [reflexivity|].
  rewrite IH. f_equal. apply split_join. exact Hp.
Qed.

End TreeFacts.

(** ** Running the slots *)

Module DialogFacts.
Import QStr QStrFacts SeparatorPrefixTree TreeFacts.

(** Unfolding of the monad in a goal. *)
Ltac run :=
  unfold bind, ret, get, put, emit, throw, try_catch; cbn [outcome final trace app].

Lemma archived_app (a b : list Event) : archived (a ++ b) = archived a ++ archived b.
Proof. apply flat_map_app. Qed.

Lemma messages_app (a b : list Event) : messages (a ++ b) = messages a ++ messages b.
Proof. apply filter_app. Qed.

Lemma icon_events_archived (tr : list Event) :
  forallb isIconEvent tr = true -> archived tr = [].
Proof.
  induction tr as [|ev tr IH]; [reflexivity|]. simpl.
  intros H. apply andb_true_iff in H. destruct H as [Hev Htr].
  rewrite (IH Htr). destruct ev; try discriminate; reflexivity.
Qed.

Lemma icon_events_messages (tr : list Event) :
  forallb isIconEvent tr = true -> messages tr = [].
Proof.
  induction tr as [|ev tr IH]; [reflexivity|]. simpl.
  intros H. apply andb_true_iff in H. destruct H as [Hev Htr].
  rewrite (IH Htr). destruct ev; try discriminate; reflexivity.
Qed.

(** [SaveIcon] returns, leaves the dialog alone, and only copies or saves
    an icon. *)
Lemma SaveIcon_run (w : World) (instance : BaseInstance) (d : Dialog) :
  exists tr, SaveIcon w instance d = MkRun (Normal tt) d tr /\
             forallb isIconEvent tr = true.
Proof.
  unfold SaveIcon.
  destruct (icon w (iconKey instance)) as [mmcIcon|]; [|eexists; split; reflexivity].
  destruct (isBuiltIn mmcIcon); [eexists; split; reflexivity|].
  destruct (getFilePath mmcIcon); [eexists; split; reflexivity|].
  destruct (availableSizes mmcIcon); eexists; split; reflexivity.
Qed.

(** The run of [doExport] once an output is picked. *)
Lemma doExport_picked (w : World) (d : Dialog) :
  isEmpty (pickedOutput w d) = false ->
  exists iconTr,
    forallb isIconEvent iconTr = true /\
    doExport w d =
    let rootDir := instanceRoot (m_instance d) in
    match MMCZip.collectFileListRecursively w rootDir
            (covers (Proxy.blockedPaths (proxyModel d))) with
    | None =>
        MkRun (Normal false) d
          (picking w d :: iconTr ++ [CollectFileList rootDir; unableToExport])
    | Some files =>
        if compressDirFiles w (pickedOutput w d) rootDir files then
          MkRun (Normal true) d
            (picking w d :: iconTr ++
               [CollectFileList rootDir;
                CompressDirFiles (pickedOutput w d) rootDir files])
        else
          MkRun (Normal false) d
            (picking w d :: iconTr ++
               [CollectFileList rootDir;
                CompressDirFiles (pickedOutput w d) rootDir files;
                unableToExport])
    end.
Proof.
  intros Hpicked.
  destruct (SaveIcon_run w (m_instance d) d) as [iconTr [Hicon Hev]].
  exists iconTr. split; [exact Hev|].
  unfold doExport. run. rewrite Hpicked. run. rewrite Hicon. run.
  destruct (MMCZip.collectFileListRecursively w _ _) as [files|]; run.
  - destruct (compressDirFiles w _ _ files); run; reflexivity.
  - reflexivity.
Qed.

(** [doExport] never throws and never changes the dialog. *)
Lemma doExport_normal (w : World) (d : Dialog) :
  exists b tr, doExport w d = MkRun (Normal b) d tr.
Proof.
  destruct (isEmpty (pickedOutput w d)) eqn:E.
  - exists false, [picking w d]. unfold doExport. run. rewrite E. reflexivity.
  - destruct (doExport_picked w d E) as [iconTr [_ ->]]. cbv zeta.
    destruct (MMCZip.collectFileListRecursively w _ _) as [files|].
    + destruct (compressDirFiles w _ _ files); eexists; eexists; reflexivity.
    + eexists; eexists; reflexivity.
Qed.

(** [savePackIgnore] returns whether or not the write throws. *)
Lemma savePackIgnore_run (w : World) (d : Dialog) :
  savePackIgnore w d =
  MkRun (Normal tt) d
    (FsWrite (ignoreFileName w d) (packIgnoreData d) ::
     match FS_write w (ignoreFileName w d) (packIgnoreData d) with
     | None => []
     | Some e => [QWarning (cause e)]
     end).
Proof.
  unfold savePackIgnore, write. run.
  destruct (FS_write w _ _); reflexivity.
Qed.

Lemma done_run (w : World) (result : Z) (d : Dialog) :
  done w result d =
  MkRun (outcome (finish w result d)) (final (finish w result d))
    (trace (savePackIgnore w d) ++ trace (finish w result d)).
Proof.
  unfold done. unfold bind at 1. rewrite savePackIgnore_run. reflexivity.
Qed.

Lemma finish_accepted (w : World) (d : Dialog) :
  finish w Accepted d =
  MkRun (Normal tt) d
    (trace (doExport w d) ++
     match outcome (doExport w d) with
     | Normal true => [QDialogDone Accepted]
     | _ => []
     end).
Proof.
  unfold finish. rewrite Z.eqb_refl.
  destruct (doExport_normal w d) as [b [tr E]].
  unfold bind. rewrite E. cbn [outcome final trace].
  destruct b; run; [reflexivity|]. rewrite app_nil_r. reflexivity.
Qed.

Lemma finish_other (w : World) (result : Z) (d : Dialog) :
  result <> Accepted ->
  finish w result d = MkRun (Normal tt) d [QDialogDone result].
Proof.
  intros H. unfold finish. apply Z.eqb_neq in H. rewrite H. reflexivity.
Qed.

(** One round of the loop of [rowsInserted]. *)
Lemma rowInserted_run (w : World) (parent : QModelIndex) (i : Z) (d : Dialog) :
  rowInserted w parent i d =
  MkRun (Normal tt) d
    (if shouldExpand w (proxyModel d) (QIdx.index i 0 parent) && QIdx.isValid parent
     then [TreeViewExpand (QIdx.index i 0 parent)] else []).
Proof.
  unfold rowInserted. run.
  destruct (shouldExpand w _ _); [|reflexivity].
  cbn [QIdx.parent QIdx.index]. destruct (QIdx.isValid parent); reflexivity.
Qed.

(** The loop returns, leaves the dialog alone, and expands only rows it
    went through. *)
Lemma rowsFrom_run (w : World) (parent : QModelIndex) (count : nat) (i : Z)
    (d : Dialog) :
  exists tr,
    rowsFrom w parent i count d = MkRun (Normal tt) d tr /\
    forall node, In (TreeViewExpand node) tr ->
      exists j, (i <= j < i + Z.of_nat count)%Z /\ node = QIdx.index j 0 parent.
Proof.
  revert i. induction count as [|count IH]; intros i.
  - exists []. split; [reflexivity|]. intros node [].
  - destruct (IH (i + 1)%Z) as [tr [E Htr]].
    cbn [rowsFrom]. unfold bind. rewrite rowInserted_run. cbn [outcome final trace].
    rewrite E. cbn [outcome final trace].
    eexists. split; [reflexivity|].
    intros node Hin. apply in_app_or in Hin. destruct Hin as [Hin|Hin].
    + destruct (_ && _); [|contradiction].
      destruct Hin as [Hin|[]]. injection Hin as <-.
      exists i. split; [lia|reflexivity].
    + destruct (Htr node Hin) as [j [Hj ->]].
      exists j. split; [lia|reflexivity].
Qed.

Lemma covers_empty (path : string) : covers empty path = false.
Proof. unfold covers. destruct (segments path); reflexivity. Qed.

End DialogFacts.

(** * The dialog against its specification *)

Import QStr QStrFacts SeparatorPrefixTree TreeFacts DialogFacts.

(** ** Export *)

(** C1. When an output is picked and the walk of the instance root
    enumerates [allPaths], the one file list [doExport] hands to the archive
    writer is [allPaths] without the paths the blocked-paths tree covers:
    the non-covered paths, all of them, in the order enumerated. *)
Theorem export_hands_over_uncovered_paths (w : World) (d : Dialog)
    (allPaths : list string) :
  isEmpty (pickedOutput w d) = false ->
  enumerate w (instanceRoot (m_instance d)) = Some allPaths ->
  let tree := Proxy.blockedPaths (proxyModel d) in
  archived (trace (doExport w d)) =
    [filter (fun path => negb (covers tree path)) allPaths] /\
  forall files, In files (archived (trace (doExport w d))) ->
    forall path, In path files <-> In path allPaths /\ covers tree path = false.
Proof.
  intros Hpicked Henum tree.
  assert (E : archived (trace (doExport w d)) =
              [filter (fun path => negb (covers tree path)) allPaths]).
  { destruct (doExport_picked w d Hpicked) as [iconTr [Hicon ->]]. cbv zeta.
    unfold MMCZip.collectFileListRecursively. rewrite Henum. fold tree.
    destruct (compressDirFiles w _ _ _); cbn [trace];
      change (picking w d :: ?l) with ([picking w d] ++ l);
      rewrite !archived_app, (icon_events_archived _ Hicon); reflexivity. }
  split; [exact E|].
  rewrite E. intros files [<-|[]] path.
  rewrite filter_In, negb_true_iff. reflexivity.
Qed.

Lemma export_hands_over_uncovered_paths_witness :
  let w := Scenario.world "/tmp/pack.zip" (Some ["a"; "build/out/x.txt"; "buildx"])
             true None None false in
  let d := Scenario.dialog ["build"] in
  archived (trace (doExport w d)) = [["a"; "buildx"]].
Proof.
  intros w d.
  exact (proj1 (export_hands_over_uncovered_paths w d
                  ["a"; "build/out/x.txt"; "buildx"] eq_refl eq_refl)).
Defined.

(** C6. A failed export, by enumeration or by compression: [doExport]
    returns false, has shown the one message "Unable to export instance",
    and the dialog, with its proxy model and blocked-paths tree, is as it
    was before. *)
Theorem failed_export_leaves_dialog_unchanged (w : World) (d : Dialog) :
  isEmpty (pickedOutput w d) = false ->
  exportFails w d = true ->
  outcome (doExport w d) = Normal false /\
  final (doExport w d) = d /\
  messages (trace (doExport w d)) = [unableToExport].
Proof.
  intros Hpicked Hfails.
  destruct (doExport_picked w d Hpicked) as [iconTr [Hicon ->]]. cbv zeta.
  unfold exportFails in Hfails.
  destruct (MMCZip.collectFileListRecursively w _ _) as [files|].
  - apply negb_true_iff in Hfails. rewrite Hfails. cbn [outcome final trace].
    repeat split.
    change (picking w d :: ?l) with ([picking w d] ++ l).
    rewrite !messages_app, (icon_events_messages _ Hicon). reflexivity.
  - cbn [outcome final trace]. repeat split.
    change (picking w d :: ?l) with ([picking w d] ++ l).
    rewrite !messages_app, (icon_events_messages _ Hicon). reflexivity.
Qed.

Lemma failed_export_leaves_dialog_unchanged_witness :
  let d := Scenario.dialog ["build"] in
  (let w := Scenario.world "/tmp/pack.zip" None true None None false in
   outcome (doExport w d) = Normal false /\ final (doExport w d) = d /\
   messages (trace (doExport w d)) = [unableToExport]) /\
  (let w := Scenario.world "/tmp/pack.zip" (Some ["a"]) false None None false in
   outcome (doExport w d) = Normal false /\ final (doExport w d) = d /\
   messages (trace (doExport w d)) = [unableToExport]).
Proof.
  intros d. split; intros w.
  - exact (failed_export_leaves_dialog_unchanged w d eq_refl eq_refl).
  - exact (failed_export_leaves_dialog_unchanged w d eq_refl eq_refl).
Defined.

(** C10. When the picker returns the empty path, [doExport] returns false
    with the dialog unchanged, and the call of the picker is all it did: no
    icon copied or saved, no enumeration, no archive, no message. *)
Theorem cancelled_export_does_nothing (w : World) (d : Dialog) :
  isEmpty (pickedOutput w d) = true ->
  doExport w d = MkRun (Normal false) d [picking w d].
Proof.
  intros Hpicked. unfold doExport. run. rewrite Hpicked. reflexivity.
Qed.

Lemma cancelled_export_does_nothing_witness :
  let w := Scenario.withIconFile "/icons/pack.png"
             (Scenario.world "" (Some ["a"]) true None None false) in
  let d := Scenario.dialog ["build"] in
  doExport w d = MkRun (Normal false) d [picking w d].
Proof.
  intros w d. exact (cancelled_export_does_nothing w d eq_refl).
Defined.

(** ** The ignore file *)

(** C9. Whatever the result passed to [done], the first thing [done] does
    is to write the blocked paths of the moment, joined by line breaks, to
    the ignore file; what [done] does about the result comes after. *)
Theorem done_writes_ignore_file_first (w : World) (result : Z) (d : Dialog) :
  exists warned,
    trace (done w result d) =
      FsWrite (ignoreFileName w d)
        (join newline (toStringList (Proxy.blockedPaths (proxyModel d))))
      :: warned ++ trace (finish w result d) /\
    forallb (fun ev => match ev with QWarning _ => true | _ => false end) warned
      = true.
Proof.
  rewrite done_run, savePackIgnore_run. cbn [trace outcome final].
  eexists. split; [reflexivity|].
  unfold packIgnoreData. destruct (FS_write w _ _); reflexivity.
Qed.

(** C8. When [FS::write] throws, [savePackIgnore] catches it, logs the
    cause as a warning and returns; [done] goes on as it would have: on a
    result other than Accepted it closes the dialog with that result, on
    Accepted it runs [doExport] and closes the dialog if that succeeds. *)
Theorem failed_save_does_not_block_done (w : World) (d : Dialog) (e : Exception) :
  FS_write w (ignoreFileName w d) (packIgnoreData d) = Some e ->
  let saved := [FsWrite (ignoreFileName w d) (packIgnoreData d); QWarning (cause e)] in
  savePackIgnore w d = MkRun (Normal tt) d saved /\
  (forall result, result <> Accepted ->
     done w result d = MkRun (Normal tt) d (saved ++ [QDialogDone result])) /\
  done w Accepted d =
    MkRun (Normal tt) d
      (saved ++ trace (doExport w d) ++
       match outcome (doExport w d) with
       | Normal true => [QDialogDone Accepted]
       | _ => []
       end).
Proof.
  intros Hwrite saved.
  assert (Hsave : savePackIgnore w d = MkRun (Normal tt) d saved).
  { rewrite savePackIgnore_run, Hwrite. reflexivity. }
  split; [exact Hsave|]. split.
  - intros result Hne. rewrite done_run, Hsave, (finish_other _ _ _ Hne).
    reflexivity.
  - rewrite done_run, Hsave, finish_accepted. reflexivity.
Qed.

Lemma failed_save_does_not_block_done_witness :
  let w := Scenario.world "/tmp/pack.zip" (Some ["a"; "build/x"]) true None
             (Some (MkException "disk full")) false in
  let d := Scenario.dialog ["build"] in
  done w Accepted d =
    MkRun (Normal tt) d
      [FsWrite "/inst/.packignore" "build"; QWarning "disk full";
       picking w d; CollectFileList "/inst";
       CompressDirFiles "/tmp/pack.zip" "/inst" ["a"]; QDialogDone Accepted].
Proof.
  intros w d.
  exact (proj2 (proj2 (failed_save_does_not_block_done w d
                         (MkException "disk full") eq_refl))).
Defined.

(** C5. When the ignore file cannot be opened, [loadPackIgnore] returns
    with no event at all, so without a call of [setBlockedPaths] and without
    a message, and with the dialog as it was; in the constructor, where the
    proxy is new, that leaves the empty set of blocked paths. *)
Theorem unreadable_ignore_file_is_no_ignores (w : World) (d : Dialog) :
  openReadOnly w (ignoreFileName w d) = None ->
  loadPackIgnore w d = MkRun (Normal tt) d [] /\
  (d = newDialog (m_instance d) ->
   construct w (m_instance d) = MkRun (Normal tt) d [] /\
   toStringList (Proxy.blockedPaths (proxyModel (final (construct w (m_instance d))))) = [] /\
   forall path,
     covers (Proxy.blockedPaths (proxyModel (final (construct w (m_instance d))))) path
     = false).
Proof.
  intros Hopen.
  assert (Hload : loadPackIgnore w d = MkRun (Normal tt) d []).
  { unfold loadPackIgnore. run. rewrite Hopen. reflexivity. }
  split; [exact Hload|].
  intros Hnew. unfold construct. rewrite <- Hnew, Hload. cbn [final].
  split; [reflexivity|]. rewrite Hnew. split; [reflexivity|].
  intros path. apply covers_empty.
Qed.

Lemma unreadable_ignore_file_is_no_ignores_witness :
  let w := Scenario.world "/tmp/pack.zip" (Some ["a"]) true None None false in
  construct w Scenario.instance = MkRun (Normal tt) (newDialog Scenario.instance) [].
Proof.
  intros w.
  exact (proj1 (proj2 (unreadable_ignore_file_is_no_ignores w
                         (newDialog Scenario.instance) eq_refl) eq_refl)).
Defined.

(** C7. When the ignore file is read, the list passed to [setBlockedPaths]
    is the lines of the text, in order, without the empty ones: a line is
    passed iff it is a non-empty line of the text, and [loadPackIgnore]
    returns normally whatever the text. The lines are what lies between
    the line breaks: joined by line breaks they are the text. *)
Theorem load_drops_blank_lines (w : World) (d : Dialog) (text : string) :
  openReadOnly w (ignoreFileName w d) = Some text ->
  let allLines := splitKeep newline text in
  let lines := filter (fun line => negb (isEmpty line)) allLines in
  loadPackIgnore w d =
    MkRun (Normal tt)
      (MkDialog (m_instance d) (Proxy.setBlockedPaths lines (proxyModel d)))
      [ProxySetBlockedPaths lines] /\
  join newline allLines = text /\
  (forall line, In line lines <-> In line allLines /\ line <> "") /\
  ~ In "" lines.
Proof.
  intros Hopen allLines lines.
  assert (Hin : forall line, In line lines <-> In line allLines /\ line <> "").
  { intros line. unfold lines. rewrite filter_In.
    destruct line; simpl; intuition (try discriminate; auto). }
  split; [|split; [|split]].
  - unfold loadPackIgnore. run. rewrite Hopen. reflexivity.
  - apply join_splitKeep.
  - exact Hin.
  - intros H. apply Hin in H. destruct H as [_ H]. apply H. reflexivity.
Qed.

Lemma load_drops_blank_lines_witness :
  let text := ("build" ++ String newline (String newline
                ("logs/old" ++ String newline "")))%string in
  let w := Scenario.world "/tmp/pack.zip" (Some ["a"]) true (Some text) None false in
  let d := newDialog Scenario.instance in
  trace (loadPackIgnore w d) = [ProxySetBlockedPaths ["build"; "logs/old"]].
Proof.
  intros text w d.
  exact (f_equal trace (proj1 (load_drops_blank_lines w d text eq_refl))).
Defined.

(** C3, as stated, fails: a blocked path with a line break in it is
    written as two lines and comes back, in the dialog constructed on the
    written file, as two paths. *)
Lemma round_trip_breaks_on_line_break :
  let d := Scenario.dialog [Scenario.twoLines] in
  let w := Scenario.world "" None true (Some (packIgnoreData d)) None false in
  trace (savePackIgnore w d) = [FsWrite (ignoreFileName w d) (packIgnoreData d)] /\
  openReadOnly w (ignoreFileName w d) = Some (packIgnoreData d) /\
  ~ (forall path,
       In path (reloaded w (m_instance d)) <->
       In path (toStringList (Proxy.blockedPaths (proxyModel d)))).
Proof.
  intros d w. split; [reflexivity|]. split; [reflexivity|].
  intros H. assert (Hin : In "a" (reloaded w (m_instance d))) by (left; reflexivity).
  apply H in Hin. destruct Hin as [Hin|[]]. discriminate Hin.
Qed.

Lemma in_toStringList_setBlockedPaths (tree : Node) (path : string)
    (p : FileIgnoreProxy) :
  WellFormed tree ->
  In path (toStringList (Proxy.blockedPaths
                           (Proxy.setBlockedPaths (toStringList tree) p))) <->
  In path (toStringList tree).
Proof.
  intros Hwf. unfold Proxy.setBlockedPaths, Proxy.blockedPaths. cbn [blocked].
  unfold toStringList at 1 3. rewrite !in_map_iff.
  split; intros [segs [E Hin]]; exists segs; (split; [exact E|]).
  - apply in_covered_insertAll in Hin. rewrite (segments_toStringList _ Hwf) in Hin.
    destruct Hin as [Hin|[]]. exact Hin.
  - apply in_covered_insertAll. rewrite (segments_toStringList _ Hwf).
    left. exact Hin.
Qed.

(** C3, amended. For a well-formed tree, [setBlockedPaths] of its
    [blockedPaths], on any proxy, gives a tree with the same covered paths;
    and when no covered path is empty or has a line break in it, the text
    that [savePackIgnore] writes, loaded by [loadPackIgnore] into any dialog
    on the same instance, whatever that dialog blocked before, gives a tree
    with the same covered paths: so in the dialog that the constructor
    makes, on a new proxy. *)
Theorem round_trip_keeps_covered_paths (w : World) (d : Dialog) :
  let tree := Proxy.blockedPaths (proxyModel d) in
  WellFormed tree ->
  (forall (p : FileIgnoreProxy) path,
     In path (toStringList
                (Proxy.blockedPaths (Proxy.setBlockedPaths (toStringList tree) p))) <->
     In path (toStringList tree)) /\
  (Forall (piece newline) (toStringList tree) ->
   openReadOnly w (ignoreFileName w d) = Some (packIgnoreData d) ->
   In (FsWrite (ignoreFileName w d) (packIgnoreData d)) (trace (savePackIgnore w d)) /\
   (forall d2, m_instance d2 = m_instance d ->
      forall path,
        In path (toStringList
                   (Proxy.blockedPaths (proxyModel (final (loadPackIgnore w d2))))) <->
        In path (toStringList tree)) /\
   (forall path,
      In path (reloaded w (m_instance d)) <-> In path (toStringList tree))).
Proof.
  intros tree Hwf. split.
  - intros p path. apply in_toStringList_setBlockedPaths. exact Hwf.
  - intros Hlines Hopen.
    assert (Hload : forall d2, m_instance d2 = m_instance d ->
              forall path,
                In path (toStringList
                           (Proxy.blockedPaths
                              (proxyModel (final (loadPackIgnore w d2))))) <->
                In path (toStringList tree)).
    { intros d2 Hinst path. unfold loadPackIgnore. run.
      unfold ignoreFileName in *. rewrite Hinst, Hopen.
      cbn [outcome final trace proxyModel].
      unfold packIgnoreData. fold tree. rewrite (split_join _ _ Hlines).
      apply in_toStringList_setBlockedPaths. exact Hwf. }
    split; [|split].
    + rewrite savePackIgnore_run. left. reflexivity.
    + exact Hload.
    + intros path. unfold reloaded, construct. apply Hload. reflexivity.
Qed.

Lemma round_trip_keeps_covered_paths_witness :
  let d := Scenario.dialog ["build"; "logs/old"] in
  let w := Scenario.world "" None true (Some (packIgnoreData d)) None false in
  let tree := Proxy.blockedPaths (proxyModel d) in
  WellFormed tree /\
  Forall (piece newline) (toStringList tree) /\
  Proxy.blockedPaths (proxyModel (newDialog Scenario.instance)) = empty /\
  (forall path,
     In path (reloaded w Scenario.instance) <-> In path (toStringList tree)).
Proof.
  intros d w tree.
  assert (Hwf : WellFormed tree).
  { apply WellFormed_insertAll, WellFormed_empty. }
  assert (Hlines : Forall (piece newline) (toStringList tree)).
  { repeat constructor. }
  split; [exact Hwf|]. split; [exact Hlines|]. split; [reflexivity|].
  exact (proj2 (proj2 (proj2 (round_trip_keeps_covered_paths w d Hwf)
                         Hlines eq_refl))).
Defined.

(** ** Coverage *)

Lemma covers_segments_insert_empty (segs q : list string) :
  covers_segments q (insert_segments segs empty) = true <->
  exists more, q = segs ++ more.
Proof.
  revert q. induction segs as [|seg rest IH]; intros q.
  - split; [intros _; exists q; reflexivity|].
    intros _. apply covers_segments_terminal. reflexivity.
  - destruct q as [|k q']; cbn.
    + split; [discriminate|]. intros [more H]. discriminate H.
    + destruct (String.eqb k seg) eqn:E.
      * apply String.eqb_eq in E. subst k. rewrite IH.
        split; intros [more H]; exists more; [rewrite H; reflexivity|].
        injection H as H. exact H.
      * apply String.eqb_neq in E. split; [discriminate|].
        intros [more H]. injection H as H _. contradiction.
Qed.

(** C4. Once a path P is inserted, whatever the tree was before and
    whatever is inserted after, [covers] holds of P and of every path made
    of P, a separator and more. Coverage goes by segments: in a tree with
    P alone, the paths covered are those whose segments start with the
    segments of P, so after "build" (and "build/out"), "build/out/x.txt" is
    covered and "buildx" is not. *)
Theorem inserted_path_covers_itself_and_below (tree : Node) (P : string)
    (later : list string) :
  let tree' := insertAll later (insert P tree) in
  covers tree' P = true /\
  (forall R, covers tree' (P ++ String slash R) = true) /\
  (forall Q, covers (insert P empty) Q = true <->
             exists more, segments Q = segments P ++ more) /\
  covers (insert "build/out" (insert "build" empty)) "build/out/x.txt" = true /\
  covers (insert "build/out" (insert "build" empty)) "buildx" = false.
Proof.
  intros tree'. split; [|split; [|split; [|split]]].
  - apply covers_insertAll_mono. unfold covers, insert.
    rewrite <- (app_nil_r (segments P)) at 1. apply covers_segments_insert.
  - intros R. apply covers_insertAll_mono. unfold covers, insert.
    rewrite segments_below. apply covers_segments_insert.
  - intros Q. apply covers_segments_insert_empty.
  - reflexivity.
  - reflexivity.
Qed.

(** ** Discovery *)

(** C2 does not hold of the code. The loop of [rowsInserted] stops before
    the row [bottom]: that row is never expanded, whatever [shouldExpand]
    says of it, and a batch of one row ([top = bottom]) does nothing. *)
Theorem rowsInserted_leaves_out_bottom_row (w : World) (parent : QModelIndex)
    (top bottom : Z) (d : Dialog) :
  ~ In (TreeViewExpand (QIdx.index bottom 0 parent))
       (trace (rowsInserted w parent top bottom d)) /\
  rowsInserted w parent bottom bottom d = MkRun (Normal tt) d [].
Proof.
  split.
  - unfold rowsInserted.
    destruct (rowsFrom_run w parent (Z.to_nat (bottom - top)) top d)
      as [tr [-> Htr]].
    cbn [trace]. intros Hin. destruct (Htr _ Hin) as [j [Hj E]].
    injection E as E. lia.
  - unfold rowsInserted. rewrite Z.sub_diag. reflexivity.
Qed.

(** The batch of the one row 0 under a valid parent, [shouldExpand] true:
    nothing is expanded. Of the rows 0 to 2, the rows 0 and 1 are expanded,
    the entries themselves and not their parent. *)
Example rowsInserted_batches :
  let w := Scenario.world "" None true None None true in
  let d := newDialog Scenario.instance in
  let parent := QIdx.index 0 0 InvalidIndex in
  shouldExpand w (proxyModel d) (QIdx.index 0 0 parent) = true /\
  trace (rowsInserted w parent 0 0 d) = [] /\
  trace (rowsInserted w parent 0 2 d) =
    [TreeViewExpand (QIdx.index 0 0 parent); TreeViewExpand (QIdx.index 1 0 parent)].
Proof. repeat split. Qed.

(** * Further properties of the dialog *)

Module MoreFacts.

Lemma closings_app (a b : list Event) : closings (a ++ b) = closings a ++ closings b.
Proof. apply filter_app. Qed.

Lemma icon_events_closings (tr : list Event) :
  forallb isIconEvent tr = true -> closings tr = [].
Proof.
  induction tr as [|ev tr IH]; [reflexivity|]. simpl.
  intros H. apply andb_true_iff in H. destruct H as [Hev Htr].
  rewrite (IH Htr). destruct ev; try discriminate; reflexivity.
Qed.

Lemma doExport_cancel_run (w : World) (d : Dialog) :
  isEmpty (pickedOutput w d) = true ->
  doExport w d = MkRun (Normal false) d [picking w d].
Proof. intros E. unfold doExport. run. rewrite E. reflexivity. Qed.

(** What a run of [doExport] comes to, in every world. *)
Lemma doExport_summary (w : World) (d : Dialog) :
  outcome (doExport w d) = Normal (exportSucceeds w d) /\
  final (doExport w d) = d /\
  closings (trace (doExport w d)) = [] /\
  messages (trace (doExport w d)) =
    (if isEmpty (pickedOutput w d) || exportSucceeds w d then []
     else [unableToExport]) /\
  archived (trace (doExport w d)) =
    (if isEmpty (pickedOutput w d) then []
     else match MMCZip.collectFileListRecursively w (instanceRoot (m_instance d))
                  (covers (Proxy.blockedPaths (proxyModel d))) with
          | None => []
          | Some files => [files]
          end).
Proof.
  unfold exportSucceeds, exportFails.
  destruct (isEmpty (pickedOutput w d)) eqn:E.
  - rewrite (doExport_cancel_run w d E). repeat split.
  - destruct (doExport_picked w d E) as [iconTr [Hicon ->]]. cbv zeta.
    destruct (MMCZip.collectFileListRecursively w _ _) as [files|];
      [destruct (compressDirFiles w _ _ files)|];
      cbn [outcome final trace negb andb orb];
      change (picking w d :: ?l) with ([picking w d] ++ l);
      rewrite !closings_app, !messages_app, !archived_app,
        (icon_events_closings _ Hicon), (icon_events_messages _ Hicon),
        (icon_events_archived _ Hicon);
      repeat split.
Qed.

(** *** The largest size *)

Lemma fold_larger (l : list QSize) (acc : QSize) :
  let L := fold_left larger l acc in
  (L = acc /\ forall s, In s l -> (areaOf s <= areaOf acc)%Z) \/
  (exists before after,
     l = before ++ L :: after /\
     (forall s, In s before -> (areaOf s < areaOf L)%Z) /\
     (areaOf acc < areaOf L)%Z /\
     (forall s, In s after -> (areaOf s <= areaOf L)%Z)).
Proof.
  revert acc. induction l as [|x l IH]; intros acc; cbn zeta.
  - left. split; [reflexivity|]. intros s [].
  - cbn [fold_left]. unfold larger at 2 4 6 8 10.
    destruct (areaOf acc <? areaOf x)%Z eqn:E.
    + apply Z.ltb_lt in E. destruct (IH x) as [[HL Hall]|[b [a [El [Hb [Hx Ha]]]]]].
      * right. exists [], l. rewrite HL. repeat split; auto.
        intros s [].
      * right. exists (x :: b), a. repeat split; auto.
        -- simpl. rewrite <- El. reflexivity.
        -- intros s [<-|Hs]; auto.
        -- lia.
    + apply Z.ltb_ge in E. destruct (IH acc) as [[HL Hall]|[b [a [El [Hb [Hx Ha]]]]]].
      * left. split; [exact HL|]. intros s [<-|Hs]; auto.
      * right. exists (x :: b), a. repeat split; auto.
        -- simpl. rewrite <- El. reflexivity.
        -- intros s [<-|Hs]; auto. lia.
Qed.

Lemma largestOf_in (first : QSize) (rest : list QSize) :
  In (largestOf first (first :: rest)) (first :: rest).
Proof.
  unfold largestOf. cbn [fold_left]. rewrite Z.ltb_irrefl.
  destruct (fold_larger rest first) as [[HL _]|[b [a [El _]]]].
  - left. symmetry. exact HL.
  - right. rewrite El at 2. apply in_or_app. right. left. reflexivity.
Qed.

(** *** The rows of a batch *)

Lemma in_rowsFromList (count : nat) (i j : Z) :
  In j (rowsFromList i count) <-> (i <= j < i + Z.of_nat count)%Z.
Proof.
  revert i. induction count as [|count IH]; intros i; cbn [rowsFromList In].
  - lia.
  - rewrite IH. lia.
Qed.

Lemma rowsFromList_app (a b : nat) (i : Z) :
  rowsFromList i (a + b) = rowsFromList i a ++ rowsFromList (i + Z.of_nat a)%Z b.
Proof.
  revert i. induction a as [|a IH]; intros i.
  - cbn. rewrite Z.add_0_r. reflexivity.
  - cbn [Nat.add rowsFromList app]. rewrite IH.
    replace (i + Z.of_nat (S a))%Z with (i + 1 + Z.of_nat a)%Z by lia.
    reflexivity.
Qed.

Lemma rowsBetween_split (top mid bottom : Z) :
  (top <= mid <= bottom)%Z ->
  rowsBetween top bottom = rowsBetween top mid ++ rowsBetween mid bottom.
Proof.
  intros H. unfold rowsBetween.
  replace (Z.to_nat (bottom - top)) with (Z.to_nat (mid - top) + Z.to_nat (bottom - mid))%nat
    by lia.
  rewrite rowsFromList_app.
  replace (top + Z.of_nat (Z.to_nat (mid - top)))%Z with mid by lia.
  reflexivity.
Qed.

Lemma expansions_app (w : World) (d : Dialog) (parent : QModelIndex)
    (a b : list Z) :
  expansions w d parent (a ++ b) = expansions w d parent a ++ expansions w d parent b.
Proof.
  unfold expansions. destruct (QIdx.isValid parent); [|reflexivity].
  rewrite map_app, filter_app, map_app. reflexivity.
Qed.

Lemma rowsFrom_trace (w : World) (parent : QModelIndex) (count : nat) (i : Z)
    (d : Dialog) :
  rowsFrom w parent i count d =
  MkRun (Normal tt) d (expansions w d parent (rowsFromList i count)).
Proof.
  revert i. induction count as [|count IH]; intros i.
  - unfold expansions. cbn. destruct (QIdx.isValid parent); reflexivity.
  - cbn [rowsFrom rowsFromList]. unfold bind. rewrite rowInserted_run.
    cbn [outcome final trace]. rewrite IH. cbn [outcome final trace].
    f_equal. change (i :: ?l) with ([i] ++ l). rewrite expansions_app.
    f_equal. unfold expansions. cbn.
    destruct (QIdx.isValid parent); [|rewrite andb_false_r; reflexivity].
    rewrite andb_true_r. destruct (shouldExpand w _ _); reflexivity.
Qed.

(** *** Lines *)

Lemma split_join_flat (sep : ascii) (l : list string) :
  split sep (join sep l) = flat_map (split sep) l.
Proof.
  induction l as [|x l IH]; [reflexivity|].
  destruct l as [|y l].
  - cbn [flat_map]. rewrite app_nil_r. reflexivity.
  - rewrite join_cons, split_sep, IH. reflexivity.
Qed.

Lemma split_pieces_fixed (sep : ascii) (l : list string) :
  Forall (piece sep) l -> flat_map (split sep) l = l.
Proof.
  intros H. rewrite <- split_join_flat. apply split_join. exact H.
Qed.

Lemma split_nil_iff (text : string) :
  split newline text = [] <-> onlyLineBreaks text = true.
Proof.
  unfold split. induction text as [|a r IH]; cbn [splitKeep onlyLineBreaks].
  - cbn. tauto.
  - destruct (Ascii.eqb a newline); cbn [andb].
    + cbn. exact IH.
    + destruct (splitKeep newline r); cbn; split; discriminate.
Qed.

End MoreFacts.

Import MoreFacts.

(** ** SaveIcon *)

(** X1. Among the available sizes of the icon, for sizes whose area fits an
    int, the loop of [SaveIcon] ends on a size of the largest area, and on
    the first such size of the list: every size before it is strictly
    smaller. *)
Theorem SaveIcon_picks_first_largest_size (first : QSize) (rest : list QSize) :
  Forall fitsInt (first :: rest) ->
  let sizes := first :: rest in
  let largest := largestOf first sizes in
  (forall s, In s sizes -> (areaOf s <= areaOf largest)%Z) /\
  exists before after,
    sizes = before ++ largest :: after /\
    forall s, In s before -> (areaOf s < areaOf largest)%Z.
Proof.
  intros _ sizes largest.
  assert (E : largest = fold_left larger rest first).
  { unfold largest, largestOf, sizes. cbn [fold_left].
    rewrite Z.ltb_irrefl. reflexivity. }
  rewrite E. clear E largest. unfold sizes.
  destruct (fold_larger rest first) as [[HL Hall]|[b [a [El [Hb [Hx Ha]]]]]].
  - rewrite HL. split.
    + intros s [<-|Hs]; [lia|auto].
    + exists [], rest. split; [reflexivity|]. intros s [].
  - split.
    + intros s [<-|Hs]; [lia|]. rewrite El in Hs.
      apply in_app_or in Hs. destruct Hs as [Hs|[<-|Hs]]; auto; [|lia].
      specialize (Hb s Hs). lia.
    + exists (first :: b), a. split; [simpl; rewrite <- El; reflexivity|].
      intros s [<-|Hs]; auto.
Qed.

Lemma SaveIcon_picks_first_largest_size_witness :
  Forall fitsInt [(16, 16); (32, 32); (8, 128); (24, 24)]%Z /\
  largestOf (16, 16)%Z [(16, 16); (32, 32); (8, 128); (24, 24)]%Z = (32, 32)%Z /\
  forall s, In s [(16, 16); (32, 32); (8, 128); (24, 24)]%Z -> (areaOf s <= 1024)%Z.
Proof.
  assert (H : Forall fitsInt [(16, 16); (32, 32); (8, 128); (24, 24)]%Z).
  { repeat constructor; discriminate. }
  split; [exact H|]. split; [reflexivity|].
  exact (proj1 (SaveIcon_picks_first_largest_size (16, 16)%Z
                  [(32, 32); (8, 128); (24, 24)]%Z H)).
Defined.

(** X2. [SaveIcon] writes at most one file, and only for an icon that
    the icon list knows and that is not built in: the copy of the icon's
    file, to [PathCombine] of the instance root and the file's name, or, for
    an icon without a file, the pixmap of one of its available sizes, to
    [PathCombine] of the instance root and the icon key with ".png". *)
Theorem SaveIcon_writes_at_most_one_file (w : World) (instance : BaseInstance)
    (d : Dialog) :
  outcome (SaveIcon w instance d) = Normal tt /\
  final (SaveIcon w instance d) = d /\
  (List.length (trace (SaveIcon w instance d)) <= 1)%nat /\
  Forall (savesIconOf w instance) (trace (SaveIcon w instance d)).
Proof.
  unfold SaveIcon.
  destruct (icon w (iconKey instance)) as [mmcIcon|] eqn:Hicon; [|repeat split; auto].
  destruct (isBuiltIn mmcIcon) eqn:Hbuilt; [repeat split; auto|].
  destruct (getFilePath mmcIcon) as [path|] eqn:Hpath.
  - repeat split; auto. constructor; [|constructor].
    exists mmcIcon. repeat split; assumption.
  - destruct (availableSizes mmcIcon) as [|first rest] eqn:Hsizes;
      repeat split; auto.
    constructor; [|constructor].
    exists mmcIcon. repeat split; try assumption.
    rewrite Hsizes. apply largestOf_in.
Qed.

(** ** doExport *)

(** X3. [doExport] returns true exactly when an output was picked, the walk
    succeeded and the archive writer succeeded, and it never throws. It
    shows the message "Unable to export instance" exactly when an output
    was picked and the export did not succeed; a cancelled picker and a
    successful export show nothing. *)
Theorem doExport_result_and_message (w : World) (d : Dialog) :
  outcome (doExport w d) = Normal (exportSucceeds w d) /\
  messages (trace (doExport w d)) =
    (if isEmpty (pickedOutput w d) || exportSucceeds w d then []
     else [unableToExport]).
Proof.
  destruct (doExport_summary w d) as [Ho [_ [_ [Hm _]]]]. split; assumption.
Qed.

(** X4. The archive writer is called at most once by [doExport], and only
    with a picked output and after a successful walk; it is not called for
    a cancelled picker or a failed walk. *)
Theorem doExport_calls_archive_writer_once (w : World) (d : Dialog) :
  archived (trace (doExport w d)) =
    (if isEmpty (pickedOutput w d) then []
     else match MMCZip.collectFileListRecursively w (instanceRoot (m_instance d))
                  (covers (Proxy.blockedPaths (proxyModel d))) with
          | None => []
          | Some files => [files]
          end) /\
  (List.length (archived (trace (doExport w d))) <= 1)%nat.
Proof.
  destruct (doExport_summary w d) as [_ [_ [_ [_ Ha]]]].
  split; [exact Ha|]. rewrite Ha.
  destruct (isEmpty (pickedOutput w d)); [auto|].
  destruct (MMCZip.collectFileListRecursively w _ _); auto.
Qed.

(** X5. Once an output is picked, [doExport] saves the icon before it walks
    the instance root, and whatever happens after: the events of [SaveIcon]
    follow the picker, then comes the walk, and nothing after the walk
    touches the icon. A failed export has still written the icon file. *)
Theorem doExport_saves_icon_before_walk (w : World) (d : Dialog) :
  isEmpty (pickedOutput w d) = false ->
  exists rest,
    trace (doExport w d) =
      picking w d :: trace (SaveIcon w (m_instance d) d) ++
      CollectFileList (instanceRoot (m_instance d)) :: rest /\
    forallb (fun ev => negb (isIconEvent ev)) rest = true.
Proof.
  intros Hpicked. unfold doExport. run. rewrite Hpicked. run.
  destruct (SaveIcon_run w (m_instance d) d) as [iconTr [-> _]]. run.
  destruct (MMCZip.collectFileListRecursively w _ _) as [files|]; run.
  - destruct (compressDirFiles w _ _ files); run;
      eexists; (split; [reflexivity|reflexivity]).
  - eexists. split; reflexivity.
Qed.

Lemma doExport_saves_icon_before_walk_witness :
  let w := Scenario.withIconFile "pack.png"
             (Scenario.world "/tmp/pack.zip" None true None None false) in
  let d := Scenario.dialog ["build"] in
  outcome (doExport w d) = Normal false /\
  exists rest,
    trace (doExport w d) =
      picking w d :: [FsCopy "pack.png" "/inst/pack.png"] ++
      CollectFileList "/inst" :: rest /\
    forallb (fun ev => negb (isIconEvent ev)) rest = true.
Proof.
  intros w d. split; [reflexivity|].
  exact (doExport_saves_icon_before_walk w d eq_refl).
Defined.

(** ** done *)

(** X6. [done] never throws, whatever [FS::write] and the export do, and
    leaves the dialog's state as it was. It calls [QDialog::done] at most
    once: with the result itself when that is not Accepted, with Accepted
    when the export succeeds, and not at all when the export is cancelled
    or fails, so that the dialog stays open. *)
Theorem done_closes_dialog_unless_export_fails (w : World) (result : Z)
    (d : Dialog) :
  outcome (done w result d) = Normal tt /\
  final (done w result d) = d /\
  closings (trace (done w result d)) =
    (if (result =? Accepted)%Z then
       if exportSucceeds w d then [QDialogDone Accepted] else []
     else [QDialogDone result]).
Proof.
  rewrite done_run, savePackIgnore_run. cbn [outcome final trace].
  assert (Hsave : forall rest,
            closings (FsWrite (ignoreFileName w d) (packIgnoreData d) ::
                      match FS_write w (ignoreFileName w d) (packIgnoreData d) with
                      | None => []
                      | Some e => [QWarning (cause e)]
                      end ++ rest) = closings rest).
  { intros rest. destruct (FS_write w _ _); reflexivity. }
  change (?x :: ?l ++ ?r) with (x :: (l ++ r)).
  destruct (result =? Accepted)%Z eqn:E.
  - apply Z.eqb_eq in E. subst result. rewrite finish_accepted.
    cbn [outcome final trace]. repeat split.
    rewrite <- app_comm_cons, Hsave, closings_app.
    destruct (doExport_summary w d) as [-> [_ [-> _]]].
    destruct (exportSucceeds w d); reflexivity.
  - apply Z.eqb_neq in E. rewrite (finish_other _ _ _ E).
    cbn [outcome final trace]. repeat split.
    rewrite <- app_comm_cons, Hsave. reflexivity.
Qed.

(** X7. With a result other than Accepted, [done] saves the ignore file and
    closes the dialog with that result, and nothing else: no picker, no icon,
    no walk, no archive, no message. *)
Theorem done_without_accept_never_exports (w : World) (result : Z) (d : Dialog) :
  result <> Accepted ->
  done w result d =
    MkRun (Normal tt) d (trace (savePackIgnore w d) ++ [QDialogDone result]) /\
  forallb (fun ev => match ev with FsWrite _ _ | QWarning _ => true | _ => false end)
    (trace (savePackIgnore w d)) = true.
Proof.
  intros Hne. rewrite done_run, (finish_other _ _ _ Hne). split; [reflexivity|].
  rewrite savePackIgnore_run. cbn [trace].
  destruct (FS_write w _ _); reflexivity.
Qed.

Lemma done_without_accept_never_exports_witness :
  let w := Scenario.withIconFile "pack.png"
             (Scenario.world "/tmp/pack.zip" (Some ["a"]) true None None false) in
  let d := Scenario.dialog ["build"] in
  done w Rejected d =
    MkRun (Normal tt) d [FsWrite "/inst/.packignore" "build"; QDialogDone Rejected].
Proof.
  intros w d.
  exact (proj1 (done_without_accept_never_exports w Rejected d
                  ltac:(discriminate))).
Defined.

(** ** rowsInserted *)

(** X8. [rowsInserted] returns with the dialog unchanged and expands, in
    increasing order of row, exactly the entries of the rows from [top] up
    to but not including [bottom] of which [shouldExpand] holds, and only
    under a valid parent. *)
Theorem rowsInserted_expands_rows_below_bottom (w : World) (parent : QModelIndex)
    (top bottom : Z) (d : Dialog) :
  rowsInserted w parent top bottom d =
    MkRun (Normal tt) d
      (if QIdx.isValid parent then
         map TreeViewExpand
           (filter (shouldExpand w (proxyModel d))
              (map (fun i => QIdx.index i 0 parent) (rowsBetween top bottom)))
       else []) /\
  (forall i, In i (rowsBetween top bottom) <-> (top <= i < bottom)%Z).
Proof.
  split.
  - unfold rowsInserted. rewrite rowsFrom_trace. reflexivity.
  - intros i. unfold rowsBetween. rewrite in_rowsFromList. lia.
Qed.

(** X9. Entries inserted directly under the root of the model, whose
    parent index is invalid, are never expanded, and neither is anything
    when [bottom] is not above [top]. *)
Theorem rowsInserted_expands_nothing (w : World) (parent : QModelIndex)
    (top bottom : Z) (d : Dialog) :
  QIdx.isValid parent = false \/ (bottom <= top)%Z ->
  rowsInserted w parent top bottom d = MkRun (Normal tt) d [].
Proof.
  intros H. unfold rowsInserted. rewrite rowsFrom_trace. unfold expansions.
  destruct H as [-> | H]; [reflexivity|].
  replace (Z.to_nat (bottom - top)) with O by lia.
  destruct (QIdx.isValid parent); reflexivity.
Qed.

Lemma rowsInserted_expands_nothing_witness :
  let w := Scenario.world "" None true None None true in
  let d := newDialog Scenario.instance in
  rowsInserted w InvalidIndex 0 5 d = MkRun (Normal tt) d [] /\
  rowsInserted w (QIdx.index 0 0 InvalidIndex) 3 3 d = MkRun (Normal tt) d [].
Proof.
  intros w d. split.
  - exact (rowsInserted_expands_nothing w InvalidIndex 0 5 d (or_introl eq_refl)).
  - apply (rowsInserted_expands_nothing w (QIdx.index 0 0 InvalidIndex) 3 3 d).
    right. lia.
Defined.

(** X10. Two batches one after the other do what the one batch over both
    does: for [top <= mid <= bottom], [rowsInserted] from [top] to [mid]
    followed by [rowsInserted] from [mid] to [bottom] is [rowsInserted]
    from [top] to [bottom]. *)
Theorem rowsInserted_batches_compose (w : World) (parent : QModelIndex)
    (top mid bottom : Z) (d : Dialog) :
  (top <= mid <= bottom)%Z ->
  (rowsInserted w parent top mid ;;; rowsInserted w parent mid bottom) d =
  rowsInserted w parent top bottom d.
Proof.
  intros H. unfold bind, rowsInserted. rewrite !rowsFrom_trace.
  cbn [outcome final trace].
  rewrite <- expansions_app. fold (rowsBetween top mid) (rowsBetween mid bottom).
  rewrite <- (rowsBetween_split _ _ _ H). reflexivity.
Qed.

Lemma rowsInserted_batches_compose_witness :
  let w := Scenario.world "" None true None None true in
  let d := newDialog Scenario.instance in
  let parent := QIdx.index 0 0 InvalidIndex in
  (rowsInserted w parent 0 2 ;;; rowsInserted w parent 2 5) d =
  rowsInserted w parent 0 5 d.
Proof.
  intros w d parent.
  apply (rowsInserted_batches_compose w parent 0 2 5 d). lia.
Defined.

(** ** The ignore file, again *)

(** X11. When [loadPackIgnore] reads the text that [savePackIgnore] wrote
    for a list of blocked paths, what it passes to [setBlockedPaths] is, in
    order, the non-empty lines of each path of the list: the list itself
    when no path of it is empty or has a line break. *)
Theorem load_after_save_passes_lines_of_paths (w : World) (d : Dialog) :
  openReadOnly w (ignoreFileName w d) = Some (packIgnoreData d) ->
  let saved := toStringList (Proxy.blockedPaths (proxyModel d)) in
  trace (loadPackIgnore w d) =
    [ProxySetBlockedPaths (flat_map (split newline) saved)] /\
  (Forall (piece newline) saved ->
   trace (loadPackIgnore w d) = [ProxySetBlockedPaths saved]).
Proof.
  intros Hopen saved.
  assert (E : trace (loadPackIgnore w d) =
              [ProxySetBlockedPaths (flat_map (split newline) saved)]).
  { unfold loadPackIgnore. run. rewrite Hopen. cbn [outcome final trace app].
    unfold packIgnoreData. fold saved. rewrite split_join_flat. reflexivity. }
  split; [exact E|].
  intros Hpieces. rewrite E, (split_pieces_fixed _ _ Hpieces). reflexivity.
Qed.

Lemma load_after_save_passes_lines_of_paths_witness :
  let d := Scenario.dialog ["build"; Scenario.twoLines; "logs/old"] in
  let w := Scenario.world "" None true (Some (packIgnoreData d)) None false in
  trace (loadPackIgnore w d) =
    [ProxySetBlockedPaths ["build"; "a"; "b"; "logs/old"]].
Proof.
  intros d w.
  exact (proj1 (load_after_save_passes_lines_of_paths w d eq_refl)).
Defined.

(** X12. An ignore file that can be read but holds nothing, or line breaks
    only, is not like a missing one: [loadPackIgnore] does call
    [setBlockedPaths], with the empty list. It passes the empty list for
    such texts and for no other. *)
Theorem blank_ignore_file_sets_no_paths (w : World) (d : Dialog) (text : string) :
  openReadOnly w (ignoreFileName w d) = Some text ->
  (trace (loadPackIgnore w d) = [ProxySetBlockedPaths []] <->
   onlyLineBreaks text = true) /\
  (onlyLineBreaks text = true ->
   loadPackIgnore w d =
     MkRun (Normal tt)
       (MkDialog (m_instance d) (Proxy.setBlockedPaths [] (proxyModel d)))
       [ProxySetBlockedPaths []]).
Proof.
  intros Hopen.
  assert (E : loadPackIgnore w d =
              MkRun (Normal tt)
                (MkDialog (m_instance d)
                   (Proxy.setBlockedPaths (split newline text) (proxyModel d)))
                [ProxySetBlockedPaths (split newline text)]).
  { unfold loadPackIgnore. run. rewrite Hopen. reflexivity. }
  split.
  - rewrite E. cbn [trace]. rewrite <- split_nil_iff. split.
    + intros H. injection H as H. exact H.
    + intros ->. reflexivity.
  - intros Hblank. apply split_nil_iff in Hblank. rewrite E, Hblank. reflexivity.
Qed.

Lemma blank_ignore_file_sets_no_paths_witness :
  let text := String newline (String newline "") in
  let w := Scenario.world "" None true (Some text) None false in
  let d := Scenario.dialog ["build"] in
  loadPackIgnore w d =
    MkRun (Normal tt)
      (MkDialog (m_instance d) (Proxy.setBlockedPaths [] (proxyModel d)))
      [ProxySetBlockedPaths []].
Proof.
  intros text w d.
  exact (proj2 (blank_ignore_file_sets_no_paths w d text eq_refl) eq_refl).
Defined.
